(** * MinHeap / MaxHeap (minmaxheap_chaurasia.hpp)

    A shallow embedding of the two class templates [MinHeap<T>] and
    [MaxHeap<T>] and the properties of their public interface.

    Modelling conventions.
    - [T] is any type with the comparison operators of the C++ concept
      [std::totally_ordered]; the operators are boolean functions and the
      concept's semantic requirements are the laws of the class
      [TotallyOrdered].
    - [std::vector<T>] is a record of the stored elements and the reserved
      capacity.  Reading or writing an element outside the vector, and
      [back]/[pop_back] on an empty vector, have no defined behaviour in
      C++: the model gives them the outcome [Undefined].
    - A member function is a state transformer over the vector [data]; a
      thrown exception leaves the object alive, so the outcome [Throws]
      keeps the state of [data] at the point of the throw.
    - [int] indices are integers in [Z].  Every index the code computes for
      a heap of [n] elements lies between [0] and [2 * n + 1], so this is
      exact as long as that range fits in an [int].
    - The loop of [bubbleUp] and the recursion of [bubbleDown] are
      structural on a budget of iterations (activations); a computation
      that needs more than its budget has the outcome [Unfinished].  The
      member functions run them with a budget that is proved sufficient. *)

From stdpp Require Import base tactics option list numbers strings.
From Stdlib Require Import ZArith Lia Sorting.Sorted.

Local Open Scope Z_scope.

(** ** The element type: [std::totally_ordered] *)

Class TotallyOrdered (T : Type) : Type := {
  less : T → T → bool;            (* operator<  *)
  greater : T → T → bool;         (* operator>  *)
  less_equal : T → T → bool;      (* operator<= *)
  greater_equal : T → T → bool;   (* operator>= *)
  greater_less : ∀ a b, greater a b = less b a;
  less_equal_less : ∀ a b, less_equal a b = negb (less b a);
  greater_equal_less : ∀ a b, greater_equal a b = negb (less a b);
  less_asym : ∀ a b, less a b = true → less b a = false;
  less_equal_trans : ∀ a b c,
    less_equal a b = true → less_equal b c = true → less_equal a c = true
}.

#[export] Program Instance Z_TotallyOrdered : TotallyOrdered Z := {|
  less := Z.ltb; greater := Z.gtb; less_equal := Z.leb; greater_equal := Z.geb
|}.
Next Obligation. intros a b. apply Z.gtb_ltb. Qed.
Next Obligation. intros a b. apply Z.leb_antisym. Qed.
Next Obligation. intros a b. rewrite Z.geb_leb. apply Z.leb_antisym. Qed.
Next Obligation. intros a b. simpl. lia. Qed.
Next Obligation. intros a b c. simpl. lia. Qed.

(** The same type ordered the other way round: every operator is replaced
    by its mirror image. *)
Program Definition dual {T} (O : TotallyOrdered T) : TotallyOrdered T := {|
  less := @greater T O; greater := @less T O;
  less_equal := @greater_equal T O; greater_equal := @less_equal T O
|}.
Next Obligation. intros T O a b. simpl. symmetry. apply greater_less. Qed.
Next Obligation.
  intros T O a b. simpl. by rewrite greater_equal_less, greater_less.
Qed.
Next Obligation.
  intros T O a b. simpl. by rewrite less_equal_less, greater_less.
Qed.
Next Obligation.
  intros T O a b. simpl. rewrite !greater_less. apply less_asym.
Qed.
Next Obligation.
  intros T O a b c. simpl. rewrite !greater_equal_less.
  rewrite <- (less_equal_less b a), <- (less_equal_less c b),
    <- (less_equal_less c a).
  intros ? ?. by apply less_equal_trans with b.
Qed.

(** ** Outcomes of a member function *)

Inductive exception : Type :=
| out_of_range (what : string)
| length_error (what : string).

Inductive outcome (S A : Type) : Type :=
| Returns (a : A) (s : S)       (* normal return, with the final state *)
| Throws (e : exception) (s : S) (* exception, with the state left behind *)
| Undefined                      (* out-of-bounds element access *)
| Unfinished.                    (* iteration budget used up *)
Arguments Returns {S A} a s.
Arguments Throws {S A} e s.
Arguments Undefined {S A}.
Arguments Unfinished {S A}.

Definition M (S A : Type) : Type := S → outcome S A.

Definition ret {S A} (a : A) : M S A := λ s, Returns a s.

Definition bind {S A B} (c : M S A) (k : A → M S B) : M S B :=
  λ s, match c s with
       | Returns a s' => k a s'
       | Throws e s' => Throws e s'
       | Undefined => Undefined
       | Unfinished => Unfinished
       end.

Definition throw {S A} (e : exception) : M S A := λ s, Throws e s.

Declare Scope heap_scope.
Delimit Scope heap_scope with heap.
Notation "x <- c ;; k" := (bind c (λ x, k))
  (at level 100, c at next level, right associativity) : heap_scope.
Notation "c ;; k" := (bind c (λ _, k))
  (at level 100, right associativity) : heap_scope.
Local Open Scope heap_scope.

(** ** [std::vector<T>] *)

Module Vector.
Section WithT.
Context {T : Type}.

Record vector : Type := mk { elems : list T; capacity : nat }.

(** A default-constructed vector. *)
Definition empty_vector : vector := {| elems := []; capacity := 0 |}.

(** Element [i] of a list, for an index held in an [int]. *)
Definition get (l : list T) (i : Z) : option T :=
  if decide (0 ≤ i) then l !! Z.to_nat i else None.

Definition set (l : list T) (i : Z) (x : T) : list T :=
  <[Z.to_nat i := x]> l.

Definition size : M vector Z :=
  λ v, Returns (Z.of_nat (length (elems v))) v.

Definition empty : M vector bool :=
  λ v, Returns (bool_decide (elems v = [])) v.

(** [data[i]] as an rvalue. *)
Definition at_ (i : Z) : M vector T :=
  λ v, match get (elems v) i with
       | Some x => Returns x v
       | None => Undefined
       end.

(** [data[i] = x]. *)
Definition assign (i : Z) (x : T) : M vector unit :=
  λ v, match get (elems v) i with
       | Some _ => Returns tt {| elems := set (elems v) i x;
                                 capacity := capacity v |}
       | None => Undefined
       end.

Definition front : M vector T := at_ 0.

Definition back : M vector T :=
  λ v, match last (elems v) with
       | Some x => Returns x v
       | None => Undefined
       end.

(** Appending reallocates when the reserved storage is full; the new
    capacity follows the usual doubling policy. *)
Definition push_back (x : T) : M vector unit :=
  λ v, let n := length (elems v) in
       Returns tt {| elems := elems v ++ [x];
                     capacity := if decide (n < capacity v)%nat
                                 then capacity v
                                 else Nat.max 1 (2 * n) |}.

Definition pop_back : M vector unit :=
  λ v, match elems v with
       | [] => Undefined
       | _ => Returns tt {| elems := removelast (elems v);
                            capacity := capacity v |}
       end.

(** [reserve(n)] with an [int] argument: the argument is converted to the
    unsigned [size_type], which sends a negative value above
    [max_size()], where [reserve] throws [std::length_error]. *)
Definition reserve (n : Z) : M vector unit :=
  λ v, if decide (n < 0) then Throws (length_error "vector::reserve") v
       else Returns tt {| elems := elems v;
                          capacity := Nat.max (capacity v) (Z.to_nat n) |}.

(** [std::swap(data[i], data[j])]. *)
Definition swap (i j : Z) : M vector unit :=
  x <- at_ i ;; y <- at_ j ;; assign i y ;; assign j x.
End WithT.
Arguments vector : clear implicits.
End Vector.
Import Vector.


(** ** Positions in the implicit tree *)

(** [c] is the index of a child of the node at index [i]. *)
Definition is_child (i c : Z) : Prop := c = 2 * i + 1 ∨ c = 2 * i + 2.

(** ** Callers of the public interface *)

Section Client.
Context {T : Type}.

(** A call of one of the five public member functions. *)
Inductive call : Type :=
| Enqueue (item : T)
| Dequeue
| Peek
| GetSize
| IsEmpty.

(** What a call hands back to its caller. *)
Inductive value : Type :=
| VVoid
| VItem (x : T)
| VInt (n : Z)
| VBool (b : bool).

(** What the caller can see of a call: the private vector is dropped. *)
Inductive observed : Type :=
| Returned (r : value)
| Thrown (e : exception)
| NoBehaviour
| NoResult.

Definition observe (o : outcome (vector T) value) : observed :=
  match o with
  | Returns r _ => Returned r
  | Throws e _ => Thrown e
  | Undefined => NoBehaviour
  | Unfinished => NoResult
  end.

(** The state of the object once the call is over. *)
Definition state_after {A} (o : outcome (vector T) A) : option (vector T) :=
  match o with
  | Returns _ h => Some h
  | Throws _ h => Some h
  | Undefined => None
  | Unfinished => None
  end.

(** A caller performs the calls one after the other on the same object,
    catching every exception; the trace pairs each call with its
    outcome.  Nothing follows an outcome without a state. *)
Fixpoint run (invoke : call → M (vector T) value) (calls : list call)
    (h : vector T) : list (call * outcome (vector T) value) :=
  match calls with
  | [] => []
  | c :: calls' =>
      let o := invoke c h in
      (c, o) :: match state_after o with
                | Some h' => run invoke calls' h'
                | None => []
                end
  end.


Definition successful_enqueue (co : call * outcome (vector T) value) : bool :=
  match co with
  | (Enqueue _, Returns _ _) => true
  | _ => false
  end.

Definition successful_dequeue (co : call * outcome (vector T) value) : bool :=
  match co with
  | (Dequeue, Returns _ _) => true
  | _ => false
  end.


(** The error kind the spec calls [EmptyStructure]: the
    [std::out_of_range] that [peek] and [dequeue] throw. *)
Definition EmptyStructure (e : exception) : Prop :=
  ∃ what, e = out_of_range what.

(** A loop whose body either stops ([None]) or goes on with a new value
    of the loop variable. *)
Fixpoint loop (budget : nat) (body : Z → M (vector T) (option Z))
    (index : Z) : M (vector T) unit :=
  match budget with
  | O => λ _, Unfinished
  | S budget' =>
      next <- body index ;;
      match next with
      | Some index' => loop budget' body index'
      | None => ret tt
      end
  end.
End Client.
Arguments call : clear implicits.
Arguments value : clear implicits.
Arguments observed : clear implicits.

(** ** [template<std::totally_ordered T> class MinHeap] *)

Module MinHeap.
Section WithT.
Context {T : Type} `{TotallyOrdered T}.

(** The single data member [std::vector<T> data] is the object's state. *)
Abbreviation heap := (vector T).

(** [void bubbleUp(int index)]: one activation of the loop body per unit
    of [budget]. *)
Fixpoint bubbleUp_loop (budget : nat) (index : Z) : M heap unit :=
  match budget with
  | O => λ _, Unfinished
  | S budget' =>
      if 0 <? index then
        let parentIndex := Z.quot (index - 1) 2 in
        p <- at_ parentIndex ;; x <- at_ index ;;
        if greater p x then
          swap parentIndex index ;;
          bubbleUp_loop budget' parentIndex
        else ret tt
      else ret tt
  end.

(** The loop at most halves [index + 1] down to 1, so [index + 1]
    iterations are enough. *)
Definition bubbleUp (index : Z) : M heap unit :=
  bubbleUp_loop (S (Z.to_nat index)) index.

(** [void bubbleDown(int index)]: [depth] bounds the number of nested
    activations. *)
Fixpoint bubbleDown_rec (depth : nat) (index : Z) : M heap unit :=
  match depth with
  | O => λ _, Unfinished
  | S depth' =>
      let leftChildIndex := 2 * index + 1 in
      let rightChildIndex := 2 * index + 2 in
      let smallest := index in
      n <- size ;;
      c <- (if leftChildIndex <? n
           then l <- at_ leftChildIndex ;; x <- at_ index ;; ret (less l x)
           else ret false) ;;
      let smallest := if c then leftChildIndex else smallest in
      n <- size ;;
      c <- (if rightChildIndex <? n
           then r <- at_ rightChildIndex ;; s <- at_ smallest ;;
                ret (less r s)
           else ret false) ;;
      let smallest := if c then rightChildIndex else smallest in
      if negb (smallest =? index) then
        swap index smallest ;;
        bubbleDown_rec depth' smallest
      else ret tt
  end.

(** Each activation at least doubles [index + 1], so [size + 1]
    activations are enough. *)
Definition bubbleDown (index : Z) : M heap unit :=
  λ data, bubbleDown_rec (S (length (elems data))) index data.

(** [MinHeap()] *)
Definition ctor : heap := empty_vector.

(** [MinHeap(int initialSize)]: [data] is default-constructed, then
    reserved. *)
Definition ctor_initialSize (initialSize : Z) : outcome heap unit :=
  reserve initialSize empty_vector.

(** [void enqueue(T item)] *)
Definition enqueue (item : T) : M heap unit :=
  push_back item ;;
  n <- size ;;
  bubbleUp (n - 1).

(** [void dequeue()] *)
Definition dequeue : M heap unit :=
  e <- empty ;;
  if e then throw (out_of_range "Cannot dequeue from an empty heap.")
  else
    b <- back ;;
    assign 0 b ;;
    pop_back ;;
    e <- empty ;;
    if negb e then bubbleDown 0 else ret tt.

(** [T peek() const] *)
Definition peek : M heap T :=
  e <- empty ;;
  if e then throw (out_of_range "Heap is empty.")
  else front.

(** [int getSize() const] *)
Definition getSize : M heap Z := size.

(** [bool isEmpty() const] *)
Definition isEmpty : M heap bool := empty.

(** *** Callers

    Not part of the header: the call sequences and the loops of the
    spec's testable properties. *)

Definition invoke (c : call T) : M heap (value T) :=
  match c with
  | Enqueue item => enqueue item ;; ret VVoid
  | Dequeue => dequeue ;; ret VVoid
  | Peek => x <- peek ;; ret (VItem x)
  | GetSize => n <- getSize ;; ret (VInt n)
  | IsEmpty => b <- isEmpty ;; ret (VBool b)
  end.

(** [for (T item : items) h.enqueue(item);] *)
Fixpoint enqueue_all (items : list T) : M heap unit :=
  match items with
  | [] => ret tt
  | item :: items' => enqueue item ;; enqueue_all items'
  end.

(** [while (!h.isEmpty()) { out.push_back(h.peek()); h.dequeue(); }] *)
Fixpoint drain_loop (budget : nat) : M heap (list T) :=
  match budget with
  | O => λ _, Unfinished
  | S budget' =>
      e <- isEmpty ;;
      if negb e then
        x <- peek ;;
        dequeue ;;
        out <- drain_loop budget' ;;
        ret (x :: out)
      else ret []
  end.

Definition drain : M heap (list T) :=
  λ h, drain_loop (S (length (elems h))) h.

(** *** The invariant and the two repairs, in the words of the spec *)

(** For every index [i] with a child index [c] within bounds,
    [storage[i] <= storage[c]]. *)
Definition heap_ordered (storage : list T) : Prop :=
  ∀ i c x y, is_child i c →
    get storage i = Some x → get storage c = Some y → less_equal x y = true.

(** The same as a check that runs: every element but the root is compared
    with its parent. *)
Definition is_heap_ordered (storage : list T) : bool :=
  forallb (λ c : nat,
             match get storage ((Z.of_nat c - 1) / 2),
                   get storage (Z.of_nat c) with
             | Some p, Some x => less_equal p x
             | _, _ => true
             end)
    (seq 1 (length storage - 1)).

(** The output of a drain is non-decreasing. *)
Definition ordered_output (out : list T) : Prop :=
  Sorted (λ a b, less_equal a b = true) out.

(** Both elements exchanged, as [std::swap] leaves them. *)
Definition exchange (l : list T) (i j : Z) : list T :=
  match get l i, get l j with
  | Some x, Some y => set (set l i y) j x
  | _, _ => l
  end.

(** Upward repair: the element at [i] is exchanged with its parent while
    the parent is strictly greater; it stops at the root or as soon as
    the parent is not. *)
Inductive repairs_up : list T → Z → list T → Prop :=
| up_root l i : i ≤ 0 → repairs_up l i l
| up_stop l i p x :
    0 < i → get l ((i - 1) / 2) = Some p → get l i = Some x →
    greater p x = false → repairs_up l i l
| up_swap l i p x l' :
    0 < i → get l ((i - 1) / 2) = Some p → get l i = Some x →
    greater p x = true →
    repairs_up (exchange l ((i - 1) / 2) i) ((i - 1) / 2) l' →
    repairs_up l i l'.

(** The smallest of the node at [i] and its present children: the left
    child is selected when strictly smaller than the node, the right one
    when strictly smaller than the selection made so far. *)
Definition select_smallest (l : list T) (i : Z) : Z :=
  let selected :=
    match get l (2 * i + 1), get l i with
    | Some a, Some x => if less a x then 2 * i + 1 else i
    | _, _ => i
    end in
  match get l (2 * i + 2), get l selected with
  | Some b, Some s => if less b s then 2 * i + 2 else selected
  | _, _ => selected
  end.

(** Downward repair: the node at [i] is exchanged with the selected
    child and the repair goes on from there; it stops when the node
    itself is selected. *)
Inductive repairs_down : list T → Z → list T → Prop :=
| down_stop l i : select_smallest l i = i → repairs_down l i l
| down_swap l i l' :
    select_smallest l i ≠ i →
    repairs_down (exchange l i (select_smallest l i))
      (select_smallest l i) l' →
    repairs_down l i l'.

(** *** Downward repair as a loop

    The alternative to the recursion that the spec allows. *)

(** One iteration: compare, and either stop or exchange and go on from
    the child. *)
Definition bubbleDown_body (index : Z) : M heap (option Z) :=
  let leftChildIndex := 2 * index + 1 in
  let rightChildIndex := 2 * index + 2 in
  let smallest := index in
  n <- size ;;
  c <- (if leftChildIndex <? n
        then l <- at_ leftChildIndex ;; x <- at_ index ;; ret (less l x)
        else ret false) ;;
  let smallest := if c then leftChildIndex else smallest in
  n <- size ;;
  c <- (if rightChildIndex <? n
        then r <- at_ rightChildIndex ;; s <- at_ smallest ;; ret (less r s)
        else ret false) ;;
  let smallest := if c then rightChildIndex else smallest in
  if negb (smallest =? index) then
    swap index smallest ;;
    ret (Some smallest)
  else ret None.

Definition bubbleDown_iterative (index : Z) : M heap unit :=
  λ data, loop (S (length (elems data))) bubbleDown_body index data.
End WithT.
End MinHeap.

(** ** [template<std::totally_ordered T> class MaxHeap] *)

Module MaxHeap.
Section WithT.
Context {T : Type} `{TotallyOrdered T}.

Abbreviation heap := (vector T).

(** [void bubbleUp(int index)] *)
Fixpoint bubbleUp_loop (budget : nat) (index : Z) : M heap unit :=
  match budget with
  | O => λ _, Unfinished
  | S budget' =>
      if 0 <? index then
        let parentIndex := Z.quot (index - 1) 2 in
        p <- at_ parentIndex ;; x <- at_ index ;;
        if less p x then
          swap parentIndex index ;;
          bubbleUp_loop budget' parentIndex
        else ret tt
      else ret tt
  end.

Definition bubbleUp (index : Z) : M heap unit :=
  bubbleUp_loop (S (Z.to_nat index)) index.

(** [void bubbleDown(int index)] *)
Fixpoint bubbleDown_rec (depth : nat) (index : Z) : M heap unit :=
  match depth with
  | O => λ _, Unfinished
  | S depth' =>
      let leftChildIndex := 2 * index + 1 in
      let rightChildIndex := 2 * index + 2 in
      let largest := index in
      n <- size ;;
      c <- (if leftChildIndex <? n
           then l <- at_ leftChildIndex ;; x <- at_ index ;;
                ret (greater l x)
           else ret false) ;;
      let largest := if c then leftChildIndex else largest in
      n <- size ;;
      c <- (if rightChildIndex <? n
           then r <- at_ rightChildIndex ;; s <- at_ largest ;;
                ret (greater r s)
           else ret false) ;;
      let largest := if c then rightChildIndex else largest in
      if negb (largest =? index) then
        swap index largest ;;
        bubbleDown_rec depth' largest
      else ret tt
  end.

Definition bubbleDown (index : Z) : M heap unit :=
  λ data, bubbleDown_rec (S (length (elems data))) index data.

(** [MaxHeap()] *)
Definition ctor : heap := empty_vector.

(** [MaxHeap(int initialSize)] *)
Definition ctor_initialSize (initialSize : Z) : outcome heap unit :=
  reserve initialSize empty_vector.

(** [void enqueue(T item)] *)
Definition enqueue (item : T) : M heap unit :=
  push_back item ;;
  n <- size ;;
  bubbleUp (n - 1).

(** [void dequeue()] *)
Definition dequeue : M heap unit :=
  e <- empty ;;
  if e then throw (out_of_range "Cannot dequeue from an empty heap.")
  else
    b <- back ;;
    assign 0 b ;;
    pop_back ;;
    e <- empty ;;
    if negb e then bubbleDown 0 else ret tt.

(** [T peek() const] *)
Definition peek : M heap T :=
  e <- empty ;;
  if e then throw (out_of_range "Heap is empty.")
  else front.

(** [int getSize() const] *)
Definition getSize : M heap Z := size.

(** [bool isEmpty() const] *)
Definition isEmpty : M heap bool := empty.

(** *** Callers

    Not part of the header: the call sequences and the loops of the
    spec's testable properties. *)

Definition invoke (c : call T) : M heap (value T) :=
  match c with
  | Enqueue item => enqueue item ;; ret VVoid
  | Dequeue => dequeue ;; ret VVoid
  | Peek => x <- peek ;; ret (VItem x)
  | GetSize => n <- getSize ;; ret (VInt n)
  | IsEmpty => b <- isEmpty ;; ret (VBool b)
  end.

(** [for (T item : items) h.enqueue(item);] *)
Fixpoint enqueue_all (items : list T) : M heap unit :=
  match items with
  | [] => ret tt
  | item :: items' => enqueue item ;; enqueue_all items'
  end.

(** [while (!h.isEmpty()) { out.push_back(h.peek()); h.dequeue(); }] *)
Fixpoint drain_loop (budget : nat) : M heap (list T) :=
  match budget with
  | O => λ _, Unfinished
  | S budget' =>
      e <- isEmpty ;;
      if negb e then
        x <- peek ;;
        dequeue ;;
        out <- drain_loop budget' ;;
        ret (x :: out)
      else ret []
  end.

Definition drain : M heap (list T) :=
  λ h, drain_loop (S (length (elems h))) h.

(** *** The invariant and the two repairs, in the words of the spec *)

(** For every index [i] with a child index [c] within bounds,
    [storage[i] >= storage[c]]. *)
Definition heap_ordered (storage : list T) : Prop :=
  ∀ i c x y, is_child i c →
    get storage i = Some x → get storage c = Some y →
    greater_equal x y = true.

(** The same as a check that runs: every element but the root is compared
    with its parent. *)
Definition is_heap_ordered (storage : list T) : bool :=
  forallb (λ c : nat,
             match get storage ((Z.of_nat c - 1) / 2),
                   get storage (Z.of_nat c) with
             | Some p, Some x => greater_equal p x
             | _, _ => true
             end)
    (seq 1 (length storage - 1)).

(** The output of a drain is non-increasing. *)
Definition ordered_output (out : list T) : Prop :=
  Sorted (λ a b, greater_equal a b = true) out.

(** Both elements exchanged, as [std::swap] leaves them. *)
Definition exchange (l : list T) (i j : Z) : list T :=
  match get l i, get l j with
  | Some x, Some y => set (set l i y) j x
  | _, _ => l
  end.

(** Upward repair: the element at [i] is exchanged with its parent while
    the parent is strictly smaller; it stops at the root or as soon as
    the parent is not. *)
Inductive repairs_up : list T → Z → list T → Prop :=
| up_root l i : i ≤ 0 → repairs_up l i l
| up_stop l i p x :
    0 < i → get l ((i - 1) / 2) = Some p → get l i = Some x →
    less p x = false → repairs_up l i l
| up_swap l i p x l' :
    0 < i → get l ((i - 1) / 2) = Some p → get l i = Some x →
    less p x = true →
    repairs_up (exchange l ((i - 1) / 2) i) ((i - 1) / 2) l' →
    repairs_up l i l'.

(** The largest of the node at [i] and its present children: the left
    child is selected when strictly larger than the node, the right one
    when strictly larger than the selection made so far. *)
Definition select_largest (l : list T) (i : Z) : Z :=
  let selected :=
    match get l (2 * i + 1), get l i with
    | Some a, Some x => if greater a x then 2 * i + 1 else i
    | _, _ => i
    end in
  match get l (2 * i + 2), get l selected with
  | Some b, Some s => if greater b s then 2 * i + 2 else selected
  | _, _ => selected
  end.

(** Downward repair: the node at [i] is exchanged with the selected
    child and the repair goes on from there; it stops when the node
    itself is selected. *)
Inductive repairs_down : list T → Z → list T → Prop :=
| down_stop l i : select_largest l i = i → repairs_down l i l
| down_swap l i l' :
    select_largest l i ≠ i →
    repairs_down (exchange l i (select_largest l i)) (select_largest l i) l' →
    repairs_down l i l'.

(** *** Downward repair as a loop

    The alternative to the recursion that the spec allows. *)

(** One iteration: compare, and either stop or exchange and go on from
    the child. *)
Definition bubbleDown_body (index : Z) : M heap (option Z) :=
  let leftChildIndex := 2 * index + 1 in
  let rightChildIndex := 2 * index + 2 in
  let largest := index in
  n <- size ;;
  c <- (if leftChildIndex <? n
        then l <- at_ leftChildIndex ;; x <- at_ index ;; ret (greater l x)
        else ret false) ;;
  let largest := if c then leftChildIndex else largest in
  n <- size ;;
  c <- (if rightChildIndex <? n
        then r <- at_ rightChildIndex ;; s <- at_ largest ;; ret (greater r s)
        else ret false) ;;
  let largest := if c then rightChildIndex else largest in
  if negb (largest =? index) then
    swap index largest ;;
    ret (Some largest)
  else ret None.

Definition bubbleDown_iterative (index : Z) : M heap unit :=
  λ data, loop (S (length (elems data))) bubbleDown_body index data.
End WithT.
End MaxHeap.

(** ** Heap order around one node under repair *)

Section Invariants.
Context {T : Type} `{TotallyOrdered T}.

(** The order holds between every node and child, except between [k]
    and its parent; the parent of [k] is already in order with the
    children of [k]. *)
Definition ordered_except_child (k : Z) (l : list T) : Prop :=
  (∀ i c x y, is_child i c → c ≠ k →
     get l i = Some x → get l c = Some y → less_equal x y = true)
  ∧ (∀ g c x y, is_child g k → is_child k c →
     get l g = Some x → get l c = Some y → less_equal x y = true).

(** The same, except between [k] and its children. *)
Definition ordered_except_parent (k : Z) (l : list T) : Prop :=
  (∀ i c x y, is_child i c → i ≠ k →
     get l i = Some x → get l c = Some y → less_equal x y = true)
  ∧ (∀ g c x y, is_child g k → is_child k c →
     get l g = Some x → get l c = Some y → less_equal x y = true).
End Invariants.

(** * Properties *)

(** ** The model at work *)

Example enqueue_sifts_up :
  MinHeap.enqueue 0 (mk [1; 3; 2] 4) = Returns tt (mk [0; 1; 2; 3] 4).
Proof. reflexivity. Qed.

Example enqueue_stops_at_equal_parent :
  MinHeap.enqueue 1 (mk [1; 3; 2] 4) = Returns tt (mk [1; 1; 2; 3] 4).
Proof. reflexivity. Qed.

Example dequeue_prefers_left_on_tie :
  MinHeap.dequeue (mk [1; 4; 4; 9] 4) = Returns tt (mk [4; 9; 4] 4).
Proof. reflexivity. Qed.

Example dequeue_takes_strictly_smaller_right :
  MinHeap.dequeue (mk [1; 4; 3; 9] 4) = Returns tt (mk [3; 4; 9] 4).
Proof. reflexivity. Qed.

Example max_dequeue_takes_larger_child :
  MaxHeap.dequeue (mk [9; 4; 7; 1] 4) = Returns tt (mk [7; 4; 1] 4).
Proof. reflexivity. Qed.

Example dequeue_on_empty_throws :
  MinHeap.dequeue (@MinHeap.ctor Z)
  = Throws (out_of_range "Cannot dequeue from an empty heap.") MinHeap.ctor.
Proof. reflexivity. Qed.

Example peek_on_empty_throws :
  MaxHeap.peek (@MaxHeap.ctor Z)
  = Throws (out_of_range "Heap is empty.") MaxHeap.ctor.
Proof. reflexivity. Qed.

Example push_back_grows_capacity :
  MinHeap.enqueue_all [5; 3; 8; 1; 9; 2] MinHeap.ctor
  = Returns tt (mk [1; 3; 2; 5; 9; 8] 8).
Proof. reflexivity. Qed.

Example bubbleDown_before_the_vector :
  MinHeap.bubbleDown (-1) (mk [1; 2] 2) = Undefined.
Proof. reflexivity. Qed.

Example bubbleDown_past_the_vector :
  MinHeap.bubbleDown 7 (mk [1; 2] 2) = Returns tt (mk [1; 2] 2).
Proof. reflexivity. Qed.

Example reserve_keeps_the_heap_empty :
  @MinHeap.ctor_initialSize Z 16 = Returns tt (mk [] 16).
Proof. reflexivity. Qed.

Example run_catches_exceptions :
  (λ co, observe co.2)
    <$> run MinHeap.invoke [Dequeue; Enqueue 4; Enqueue 2; Peek; GetSize;
                            Dequeue; Dequeue; IsEmpty; Peek] MinHeap.ctor
  = [Thrown (out_of_range "Cannot dequeue from an empty heap.");
     Returned VVoid; Returned VVoid; Returned (VItem 2); Returned (VInt 2);
     Returned VVoid; Returned VVoid; Returned (VBool true);
     Thrown (out_of_range "Heap is empty.")].
Proof. reflexivity. Qed.

(** ** The order on elements *)

Section Order.
Context {T : Type} `{TotallyOrdered T}.

Lemma less_irrefl a : less a a = false.
Proof.
  destruct (less a a) eqn:E; [|done]. by rewrite (less_asym a a E) in E.
Qed.

Lemma less_equal_refl a : less_equal a a = true.
Proof. by rewrite less_equal_less, less_irrefl. Qed.

Lemma not_less_less_equal a b : less b a = false → less_equal a b = true.
Proof. intros E. by rewrite less_equal_less, E. Qed.

Lemma less_less_equal a b : less a b = true → less_equal a b = true.
Proof. intros E. apply not_less_less_equal. by apply less_asym. Qed.

Lemma not_greater_less_equal p x :
  greater p x = false → less_equal p x = true.
Proof. rewrite greater_less. apply not_less_less_equal. Qed.

Lemma greater_less_equal p x : greater p x = true → less_equal x p = true.
Proof. rewrite greater_less. apply less_less_equal. Qed.

Lemma less_less_equal_trans a b c :
  less a b = true → less_equal b c = true → less a c = true.
Proof.
  intros Hab Hbc. destruct (less a c) eqn:E; [done|].
  apply not_less_less_equal in E.
  pose proof (less_equal_trans _ _ _ Hbc E) as Hba.
  rewrite less_equal_less, Hab in Hba. done.
Qed.
End Order.

(** ** Index arithmetic *)

Lemma parent_is_child i : 0 < i → is_child ((i - 1) / 2) i.
Proof. intros Hi. unfold is_child. Z.div_mod_to_equations. lia. Qed.

Lemma pow2_gt n : 0 ≤ n → n < 2 ^ n.
Proof. intros. by apply Z.pow_gt_lin_r. Qed.

(** ** Elements of a vector by [int] index *)

Section Lists.
Context {T : Type}.
Implicit Types (l : list T) (i j k : Z) (x y : T).

Lemma get_Some_bounds l i x : get l i = Some x → 0 ≤ i < Z.of_nat (length l).
Proof.
  unfold get. case_decide; [|done]. intros E%lookup_lt_Some. lia.
Qed.

Lemma get_in_bounds l i : 0 ≤ i < Z.of_nat (length l) → is_Some (get l i).
Proof.
  intros Hi. unfold get. rewrite decide_True by lia.
  apply lookup_lt_is_Some. lia.
Qed.

Lemma get_None_bounds l i : get l i = None → i < 0 ∨ Z.of_nat (length l) ≤ i.
Proof.
  intros E. destruct (decide (0 ≤ i < Z.of_nat (length l))) as [Hi|]; [|lia].
  destruct (get_in_bounds l i Hi) as [x Hx]. congruence.
Qed.

Lemma get_out_of_bounds l i : Z.of_nat (length l) ≤ i → get l i = None.
Proof.
  intros Hi. destruct (get l i) eqn:E; [|done].
  apply get_Some_bounds in E. lia.
Qed.

Lemma length_set l i x : length (set l i x) = length l.
Proof. apply length_insert. Qed.

Lemma get_set_eq l i x :
  0 ≤ i < Z.of_nat (length l) → get (set l i x) i = Some x.
Proof.
  intros Hi. unfold get, set. rewrite decide_True by lia.
  apply list_lookup_insert_eq. lia.
Qed.

Lemma get_set_ne l i j x : 0 ≤ i → i ≠ j → get (set l i x) j = get l j.
Proof.
  intros Hi Hij. unfold get, set. case_decide; [|done].
  apply list_lookup_insert_ne. lia.
Qed.

Lemma get_app_l l l' i : i < Z.of_nat (length l) → get (l ++ l') i = get l i.
Proof.
  intros Hi. unfold get. case_decide; [|done]. apply lookup_app_l. lia.
Qed.


Lemma get_head l x : get (x :: l) 0 = Some x.
Proof. done. Qed.

Lemma get_root_nonempty l : l ≠ [] → ∃ x, get l 0 = Some x.
Proof. destruct l as [|x l]; [done|]. by exists x. Qed.

Lemma nonempty_cases l :
  l = [] ∨ (∃ a, l = [a]) ∨ (∃ a m b, l = a :: m ++ [b]).
Proof.
  destruct l as [|a l]; [by left|right].
  destruct (decide (l = [])) as [->|Hl]; [left; eauto|right].
  apply last_is_Some in Hl as [b Hb]. apply last_Some in Hb as [m ->]. eauto.
Qed.

(** Elements of [exchange l i j] (the same for both heaps). *)
Lemma get_exchanged l i j x y k :
  get l i = Some x → get l j = Some y →
  get (set (set l i y) j x) k =
    if decide (k = j) then Some x
    else if decide (k = i) then Some y else get l k.
Proof.
  intros Hi Hj.
  pose proof (get_Some_bounds _ _ _ Hi). pose proof (get_Some_bounds _ _ _ Hj).
  case_decide as Hkj.
  - subst k. apply get_set_eq. rewrite length_set. lia.
  - rewrite get_set_ne by lia. case_decide as Hki.
    + subst k. by apply get_set_eq.
    + apply get_set_ne; lia.
Qed.

Lemma insert_cons_Permutation l (n : nat) x y :
  l !! n = Some y → y :: <[n:=x]> l ≡ₚ x :: l.
Proof.
  revert n. induction l as [|b l IH]; intros [|n] E; simplify_eq/=.
  - apply perm_swap.
  - rewrite perm_swap. rewrite (IH _ E). apply perm_swap.
Qed.

Lemma insert_insert_Permutation l (n m : nat) x y :
  l !! n = Some x → l !! m = Some y → <[m:=x]> (<[n:=y]> l) ≡ₚ l.
Proof.
  revert n m. induction l as [|b l IH]; intros [|n] [|m] En Em; simplify_eq/=.
  - done.
  - by apply insert_cons_Permutation.
  - symmetry. rewrite <- (insert_cons_Permutation l n y x En) at 1.
    apply perm_swap || done.
  - f_equiv. by apply IH.
Qed.

Lemma exchange_Permutation l i j : MinHeap.exchange l i j ≡ₚ l.
Proof.
  unfold MinHeap.exchange.
  destruct (get l i) as [x|] eqn:Ei; [|done].
  destruct (get l j) as [y|] eqn:Ej; [|done].
  unfold get in Ei, Ej. repeat case_decide; try done.
  by apply insert_insert_Permutation.
Qed.

Lemma exchange_length l i j :
  length (MinHeap.exchange l i j) = length l.
Proof. by rewrite exchange_Permutation. Qed.

Lemma get_exchange l i j x y k :
  get l i = Some x → get l j = Some y →
  get (MinHeap.exchange l i j) k =
    if decide (k = j) then Some x
    else if decide (k = i) then Some y else get l k.
Proof.
  intros Ei Ej. unfold MinHeap.exchange. rewrite Ei, Ej.
  by apply get_exchanged.
Qed.
End Lists.

(** ** The primitives of the vector *)

Section Primitives.
Context {T : Type}.
Implicit Types (l : list T) (i j k : Z) (x y : T) (h : vector T).

Lemma bind_Returns {A B} (c : M (vector T) A) (f : A → M (vector T) B) h a h' :
  c h = Returns a h' → bind c f h = f a h'.
Proof. unfold bind. by intros ->. Qed.

Lemma size_Returns h : size h = Returns (Z.of_nat (length (elems h))) h.
Proof. done. Qed.

Lemma empty_Returns h : empty h = Returns (bool_decide (elems h = [])) h.
Proof. done. Qed.

Lemma at_Returns h i x : get (elems h) i = Some x → at_ i h = Returns x h.
Proof. unfold at_. by intros ->. Qed.

Lemma push_back_Returns x h :
  ∃ cap, push_back x h = Returns tt (mk (elems h ++ [x]) cap).
Proof. by eexists. Qed.

Lemma swap_Returns h i j x y :
  get (elems h) i = Some x → get (elems h) j = Some y →
  swap i j h = Returns tt (mk (MinHeap.exchange (elems h) i j) (capacity h)).
Proof.
  intros Hi Hj. unfold swap, MinHeap.exchange. rewrite Hi, Hj.
  rewrite (bind_Returns _ _ _ _ _ (at_Returns _ _ _ Hi)).
  rewrite (bind_Returns _ _ _ _ _ (at_Returns _ _ _ Hj)).
  unfold bind, assign. rewrite Hi. simpl.
  pose proof (get_Some_bounds _ _ _ Hi). pose proof (get_Some_bounds _ _ _ Hj).
  destruct (decide (i = j)) as [->|].
  - rewrite get_set_eq by lia. done.
  - rewrite get_set_ne by lia. by rewrite Hj.
Qed.
End Primitives.

Section MinHeapProofs.
Context {T : Type} `{TotallyOrdered T}.
Implicit Types (l : list T) (i j k : Z) (x y : T) (h : vector T).

(** ** MinHeap: upward repair *)

(** With enough budget the loop of [bubbleUp] returns, and what it returns
    is the upward repair of the spec. *)
Lemma bubbleUp_loop_repairs budget : ∀ i h,
  0 ≤ i < Z.of_nat (length (elems h)) → i + 1 < 2 ^ Z.of_nat budget →
  ∃ l', MinHeap.bubbleUp_loop budget i h = Returns tt (mk l' (capacity h))
        ∧ MinHeap.repairs_up (elems h) i l'.
Proof.
  induction budget as [|b IH]; intros i h Hi Hb.
  { change (2 ^ Z.of_nat 0) with 1 in Hb. lia. }
  cbn [MinHeap.bubbleUp_loop].
  destruct (0 <? i) eqn:E0.
  - apply Z.ltb_lt in E0.
    rewrite Z.quot_div_nonneg by lia.
    assert (Hp : 0 ≤ (i - 1) / 2 < i).
    { split; [apply Z.div_pos; lia|apply Z.div_lt_upper_bound; lia]. }
    destruct (get_in_bounds (elems h) ((i - 1) / 2)) as [p Ep]; [lia|].
    destruct (get_in_bounds (elems h) i) as [x Ex]; [lia|].
    rewrite (bind_Returns _ _ _ _ _ (at_Returns _ _ _ Ep)).
    rewrite (bind_Returns _ _ _ _ _ (at_Returns _ _ _ Ex)).
    destruct (greater p x) eqn:Eg.
    + rewrite (bind_Returns _ _ _ _ _ (swap_Returns _ _ _ _ _ Ep Ex)).
      destruct (IH ((i - 1) / 2)
                  (mk (MinHeap.exchange (elems h) ((i - 1) / 2) i)
                     (capacity h)))
        as (l' & E & R).
      * simpl. rewrite exchange_Permutation. lia.
      * rewrite Nat2Z.inj_succ, Z.pow_succ_r in Hb by lia.
        pose proof (Z.mul_div_le (i - 1) 2). lia.
      * exists l'. split; [exact E|]. by eapply MinHeap.up_swap.
    + exists (elems h). split; [by destruct h|]. by eapply MinHeap.up_stop.
  - apply Z.ltb_ge in E0. exists (elems h). split; [by destruct h|].
    by apply MinHeap.up_root.
Qed.

(** The budget of [bubbleUp] is enough whatever the index, in bounds or
    not: the loop returns or reads outside the vector, it never runs out. *)
Lemma bubbleUp_loop_finishes budget : ∀ i h,
  (0 < budget)%nat → i ≤ 0 ∨ i + 1 < 2 ^ Z.of_nat budget →
  MinHeap.bubbleUp_loop budget i h ≠ Unfinished.
Proof.
  induction budget as [|b IH]; intros i h Hpos Hb; [lia|].
  cbn [MinHeap.bubbleUp_loop].
  destruct (0 <? i) eqn:E0; [|done]. apply Z.ltb_lt in E0.
  rewrite Z.quot_div_nonneg by lia.
  unfold bind at 1. unfold at_ at 1.
  destruct (get (elems h) ((i - 1) / 2)) as [p|] eqn:Ep; [|done].
  unfold bind at 1. unfold at_ at 1.
  destruct (get (elems h) i) as [x|] eqn:Ex; [|done].
  destruct (greater p x); [|done].
  rewrite (bind_Returns _ _ _ _ _ (swap_Returns _ _ _ _ _ Ep Ex)).
  rewrite Nat2Z.inj_succ, Z.pow_succ_r in Hb by lia.
  pose proof (Z.mul_div_le (i - 1) 2).
  assert (0 ≤ (i - 1) / 2) by (apply Z.div_pos; lia).
  apply IH; [|lia].
  destruct b; [|lia]. change (2 ^ Z.of_nat 0) with 1 in Hb. lia.
Qed.

Lemma bubbleUp_finishes i h : MinHeap.bubbleUp i h ≠ Unfinished.
Proof.
  apply bubbleUp_loop_finishes; [lia|].
  destruct (decide (i ≤ 0)); [by left|right].
  rewrite Nat2Z.inj_succ, Z2Nat.id by lia. apply pow2_gt. lia.
Qed.

Lemma repairs_up_Permutation l i l' : MinHeap.repairs_up l i l' → l' ≡ₚ l.
Proof.
  induction 1 as [| |l i p x l' ? ? ? ? ? IH]; [done..|].
  by rewrite IH, exchange_Permutation.
Qed.


(** Closes an order goal between two elements from the order known
    between a node and a child ([Hp]), or between a node and a
    grandchild ([Hg]). *)
Ltac by_pairs Hp :=
  eapply Hp; [| |eassumption|eassumption]; unfold is_child; lia.
Ltac by_grand Hg :=
  eapply Hg; [| |eassumption|eassumption]; unfold is_child; lia.

(** One exchange with a strictly greater parent moves the only possible
    violation of the order one level up. *)
Lemma exchange_up_ordered l i p x :
  0 < i → get l ((i - 1) / 2) = Some p → get l i = Some x →
  greater p x = true → ordered_except_child i l →
  ordered_except_child ((i - 1) / 2) (MinHeap.exchange l ((i - 1) / 2) i).
Proof.
  intros Hi Ep Ex Hg [Hpairs Hgrand].
  pose proof (parent_is_child i Hi) as Hpi.
  apply greater_less_equal in Hg.
  set (q := (i - 1) / 2) in *. unfold is_child in Hpi.
  split.
  - intros a c u v Hac Hc. rewrite !(get_exchange _ _ _ _ _ _ Ep Ex).
    unfold is_child in Hac.
    repeat case_decide; intros; simplify_eq; try lia;
      first [ done | by_pairs Hpairs | by_grand Hgrand
            | eapply less_equal_trans; [exact Hg|]; by_pairs Hpairs ].
  - intros g c u v Hgq Hqc. rewrite !(get_exchange _ _ _ _ _ _ Ep Ex).
    unfold is_child in Hgq, Hqc.
    repeat case_decide; intros; simplify_eq; try lia;
      first [ by_pairs Hpairs
            | eapply less_equal_trans;
                [eapply Hpairs; [| |eassumption|exact Ep]
                |eapply Hpairs; [| |exact Ep|eassumption]];
                unfold is_child; lia ].
Qed.

Lemma repairs_up_heap_ordered l i l' :
  MinHeap.repairs_up l i l' → ordered_except_child i l →
  MinHeap.heap_ordered l'.
Proof.
  induction 1 as [l i Hi|l i p x Hi Ep Ex Hg|l i p x l' Hi Ep Ex Hg _ IH];
    intros Hok.
  - destruct Hok as [Hpairs _]. intros a c u v Hac Ea Ec.
    apply (Hpairs a c); try done.
    apply get_Some_bounds in Ea. unfold is_child in Hac. lia.
  - destruct Hok as [Hpairs _]. intros a c u v Hac Ea Ec.
    destruct (decide (c = i)) as [->|]; [|by apply (Hpairs a c)].
    pose proof (parent_is_child i Hi) as Hpi. unfold is_child in Hac, Hpi.
    assert (a = (i - 1) / 2) as -> by lia. simplify_eq.
    by apply not_greater_less_equal.
  - apply IH. by eapply exchange_up_ordered.
Qed.

(** ** MinHeap: downward repair *)

(** The guarded comparison [c < size && data[c] < data[o]]. *)
Lemma guarded_less_Returns h c o :
  0 ≤ c → is_Some (get (elems h) o) →
  (if c <? Z.of_nat (length (elems h))
   then a <- at_ c ;; x <- at_ o ;; ret (less a x)
   else ret false) h =
  Returns match get (elems h) c, get (elems h) o with
          | Some a, Some x => less a x
          | _, _ => false
          end h.
Proof.
  intros Hc [x Ex]. destruct (Z.ltb_spec c (Z.of_nat (length (elems h)))).
  - destruct (get_in_bounds (elems h) c) as [a Ea]; [lia|].
    rewrite (bind_Returns _ _ _ _ _ (at_Returns _ _ _ Ea)).
    rewrite (bind_Returns _ _ _ _ _ (at_Returns _ _ _ Ex)).
    by rewrite Ea, Ex.
  - by rewrite get_out_of_bounds.
Qed.

(** The recursion of [bubbleDown] is the loop over [bubbleDown_body], with
    the same budget. *)
Lemma bubbleDown_rec_loop depth : ∀ i h,
  MinHeap.bubbleDown_rec depth i h = loop depth MinHeap.bubbleDown_body i h.
Proof.
  induction depth as [|d IH]; intros i h; [done|].
  cbn [MinHeap.bubbleDown_rec loop].
  unfold MinHeap.bubbleDown_body, bind, size, ret.
  repeat case_match; simplify_eq; try done; apply IH.
Qed.

(** One activation of [bubbleDown] selects as the spec does, and
    exchanges exactly when a child is selected. *)
Lemma bubbleDown_body_select h i :
  0 ≤ i < Z.of_nat (length (elems h)) →
  MinHeap.bubbleDown_body i h =
    let s := MinHeap.select_smallest (elems h) i in
    if decide (s = i) then Returns None h
    else Returns (Some s) (mk (MinHeap.exchange (elems h) i s) (capacity h)).
Proof.
  intros Hi. destruct (get_in_bounds _ _ Hi) as [x Ex].
  unfold MinHeap.bubbleDown_body, MinHeap.select_smallest. cbv zeta.
  rewrite (bind_Returns _ _ _ _ _ (size_Returns h)).
  rewrite (bind_Returns _ _ _ _ _
             (guarded_less_Returns h (2 * i + 1) i ltac:(lia) ltac:(eauto))).
  rewrite (bind_Returns _ _ _ _ _ (size_Returns h)).
  rewrite Ex.
  set (c := match get (elems h) (2 * i + 1) with
            | Some a => less a x | None => false end).
  assert (Hsel : match get (elems h) (2 * i + 1) with
                 | Some a => if less a x then 2 * i + 1 else i
                 | None => i end = if c then 2 * i + 1 else i).
  { subst c. by destruct (get (elems h) (2 * i + 1)). }
  rewrite Hsel. clear Hsel.
  assert (Hs : is_Some (get (elems h) (if c then 2 * i + 1 else i))).
  { subst c. destruct (get (elems h) (2 * i + 1)) as [a|] eqn:Ea; [|eauto].
    destruct (less a x); eauto. }
  rewrite (bind_Returns _ _ _ _ _
             (guarded_less_Returns h (2 * i + 2) _ ltac:(lia) Hs)).
  destruct Hs as [s Es]. rewrite Es.
  destruct (get (elems h) (2 * i + 2)) as [b|] eqn:Eb.
  - destruct (less b s) eqn:Ebs.
    + rewrite decide_False by lia.
      replace (2 * i + 2 =? i) with false by lia. cbn [negb].
      by rewrite (bind_Returns _ _ _ _ _ (swap_Returns _ _ _ _ _ Ex Eb)).
    + destruct c.
      * rewrite decide_False by lia.
        replace (2 * i + 1 =? i) with false by lia. cbn [negb].
        by rewrite (bind_Returns _ _ _ _ _ (swap_Returns _ _ _ _ _ Ex Es)).
      * rewrite decide_True by lia. by rewrite Z.eqb_refl.
  - destruct c.
    + rewrite decide_False by lia.
      replace (2 * i + 1 =? i) with false by lia. cbn [negb].
      by rewrite (bind_Returns _ _ _ _ _ (swap_Returns _ _ _ _ _ Ex Es)).
    + rewrite decide_True by lia. by rewrite Z.eqb_refl.
Qed.

Lemma bubbleDown_body_outside h i :
  Z.of_nat (length (elems h)) ≤ i →
  MinHeap.bubbleDown_body i h = Returns None h.
Proof.
  intros Hi. unfold MinHeap.bubbleDown_body. cbv zeta.
  rewrite (bind_Returns _ _ _ _ _ (size_Returns h)).
  replace (2 * i + 1 <? Z.of_nat (length (elems h))) with false by lia.
  rewrite (bind_Returns _ _ _ _ h eq_refl).
  rewrite (bind_Returns _ _ _ _ _ (size_Returns h)).
  replace (2 * i + 2 <? Z.of_nat (length (elems h))) with false by lia.
  rewrite (bind_Returns _ _ _ _ h eq_refl).
  by rewrite Z.eqb_refl.
Qed.

Lemma bubbleDown_body_negative h i :
  i < 0 → MinHeap.bubbleDown_body i h = Undefined.
Proof.
  intros Hi. unfold MinHeap.bubbleDown_body. cbv zeta.
  rewrite (bind_Returns _ _ _ _ _ (size_Returns h)).
  assert ((2 * i + 1 <? Z.of_nat (length (elems h))) = true) as ->
    by (apply Z.ltb_lt; lia).
  unfold bind at 1 2. unfold at_ at 1. unfold get at 1.
  by rewrite decide_False by lia.
Qed.

(** What the selection guarantees: either the node is not above any of
    its children, or a child strictly below it and not above its
    sibling is selected. *)
Lemma select_smallest_spec l i x :
  get l i = Some x →
  (MinHeap.select_smallest l i = i ∧
     ∀ c z, is_child i c → get l c = Some z → less_equal x z = true)
  ∨ (is_child i (MinHeap.select_smallest l i) ∧
     ∃ y, get l (MinHeap.select_smallest l i) = Some y ∧ less y x = true ∧
       ∀ c z, is_child i c → get l c = Some z → less_equal y z = true).
Proof.
  intros Ex. pose proof (get_Some_bounds _ _ _ Ex) as Hi.
  unfold MinHeap.select_smallest, is_child. rewrite Ex.
  destruct (get l (2 * i + 1)) as [a|] eqn:Ea; cbv zeta.
  - destruct (less a x) eqn:Eax.
    + rewrite Ea. destruct (get l (2 * i + 2)) as [b|] eqn:Eb.
      * destruct (less b a) eqn:Eba.
        -- right. split; [lia|]. exists b. split; [done|]. split.
           { eapply less_less_equal_trans; [done|]. by apply less_less_equal. }
           intros c z [-> | ->] Ez; simplify_eq.
           ++ by apply less_less_equal.
           ++ apply less_equal_refl.
        -- right. split; [lia|]. exists a. split; [done|]. split; [done|].
           intros c z [-> | ->] Ez; simplify_eq.
           ++ apply less_equal_refl.
           ++ by apply not_less_less_equal.
      * right. split; [lia|]. exists a. split; [done|]. split; [done|].
        intros c z [-> | ->] Ez; simplify_eq. apply less_equal_refl.
    + rewrite Ex. destruct (get l (2 * i + 2)) as [b|] eqn:Eb.
      * destruct (less b x) eqn:Ebx.
        -- right. split; [lia|]. exists b. split; [done|]. split; [done|].
           intros c z [-> | ->] Ez; simplify_eq.
           ++ apply less_less_equal.
              eapply less_less_equal_trans; [done|].
              by apply not_less_less_equal.
           ++ apply less_equal_refl.
        -- left. split; [done|].
           intros c z [-> | ->] Ez; simplify_eq;
             by apply not_less_less_equal.
      * left. split; [done|].
        intros c z [-> | ->] Ez; simplify_eq. by apply not_less_less_equal.
  - rewrite Ex. apply get_None_bounds in Ea.
    rewrite (get_out_of_bounds l (2 * i + 2)) by lia.
    left. split; [done|]. intros c z Hc Ez.
    apply get_Some_bounds in Ez. lia.
Qed.

Lemma select_smallest_absent l i :
  get l i = None → MinHeap.select_smallest l i = i.
Proof.
  intros Ex. unfold MinHeap.select_smallest. rewrite Ex.
  destruct (get l (2 * i + 1)); cbv beta iota zeta; rewrite Ex;
    by destruct (get l (2 * i + 2)).
Qed.

Lemma select_smallest_cases l i :
  MinHeap.select_smallest l i = i
  ∨ (is_child i (MinHeap.select_smallest l i) ∧ 0 ≤ i ∧
     is_Some (get l (MinHeap.select_smallest l i))).
Proof.
  destruct (get l i) as [x|] eqn:Ex.
  - destruct (select_smallest_spec l i x Ex) as [[? _]|(? & y & ? & _)];
      [by left|right].
    apply get_Some_bounds in Ex. split_and!; [done|lia|eauto].
  - left. by apply select_smallest_absent.
Qed.




(** With enough depth the recursion of [bubbleDown] returns, and what it
    returns is the downward repair of the spec: each activation at least
    doubles [i + 1], which stays below the size. *)
Lemma bubbleDown_rec_repairs depth : ∀ i h,
  0 ≤ i < Z.of_nat (length (elems h)) →
  Z.of_nat (length (elems h)) < (i + 1) * 2 ^ Z.of_nat depth →
  ∃ l', MinHeap.bubbleDown_rec depth i h = Returns tt (mk l' (capacity h))
        ∧ MinHeap.repairs_down (elems h) i l'.
Proof.
  induction depth as [|d IH]; intros i h Hi Hd.
  { change (2 ^ Z.of_nat 0) with 1 in Hd. lia. }
  rewrite bubbleDown_rec_loop. cbn [loop].
  pose proof (bubbleDown_body_select h i Hi) as Eb; cbv zeta in Eb.
  destruct (select_smallest_cases (elems h) i) as [Hs|(Hc & _ & Hs)].
  - rewrite decide_True in Eb by done.
    rewrite (bind_Returns _ _ _ _ _ Eb).
    exists (elems h). split; [by destruct h|]. by apply MinHeap.down_stop.
  - assert (MinHeap.select_smallest (elems h) i ≠ i)
      by (unfold is_child in Hc; lia).
    rewrite decide_False in Eb by done.
    rewrite (bind_Returns _ _ _ _ _ Eb). rewrite <- bubbleDown_rec_loop.
    destruct Hs as [y Ey]. pose proof (get_Some_bounds _ _ _ Ey).
    edestruct (IH (MinHeap.select_smallest (elems h) i)) as (l' & E & R);
      [| |exists l'; split; [exact E|]].
    + simpl. by rewrite exchange_length.
    + simpl. rewrite exchange_length.
      rewrite Nat2Z.inj_succ, Z.pow_succ_r in Hd by lia.
      unfold is_child in Hc. nia.
    + by apply MinHeap.down_swap.
Qed.

(** The depth allowed by [bubbleDown] is enough whatever the index. *)
Lemma bubbleDown_rec_finishes depth : ∀ i h,
  (0 < depth)%nat →
  i < 0 ∨ Z.of_nat (length (elems h)) < (i + 1) * 2 ^ Z.of_nat depth →
  MinHeap.bubbleDown_rec depth i h ≠ Unfinished.
Proof.
  induction depth as [|d IH]; intros i h Hpos Hd; [lia|].
  rewrite bubbleDown_rec_loop. cbn [loop].
  destruct (decide (i < 0)) as [Hneg|Hnn].
  { unfold bind. by rewrite bubbleDown_body_negative. }
  destruct (decide (Z.of_nat (length (elems h)) ≤ i)) as [Hout|Hin].
  { by rewrite (bind_Returns _ _ _ _ _ (bubbleDown_body_outside h i Hout)). }
  pose proof (bubbleDown_body_select h i ltac:(lia)) as Eb; cbv zeta in Eb.
  destruct (select_smallest_cases (elems h) i) as [Hs|(Hc & _ & [y Ey])].
  - rewrite decide_True in Eb by done. by rewrite (bind_Returns _ _ _ _ _ Eb).
  - unfold is_child in Hc. apply get_Some_bounds in Ey.
    rewrite decide_False in Eb by lia.
    rewrite (bind_Returns _ _ _ _ _ Eb), <- bubbleDown_rec_loop.
    destruct Hd as [?|Hd]; [lia|].
    rewrite Nat2Z.inj_succ, Z.pow_succ_r in Hd by lia.
    apply IH.
    + destruct d; [|lia]. change (2 ^ Z.of_nat 0) with 1 in Hd. lia.
    + right. cbn [elems]. rewrite exchange_length. nia.
Qed.

Lemma bubbleDown_finishes i h : MinHeap.bubbleDown i h ≠ Unfinished.
Proof.
  apply bubbleDown_rec_finishes; [lia|].
  destruct (decide (i < 0)); [by left|right].
  pose proof (pow2_gt (Z.of_nat (S (length (elems h)))) ltac:(lia)). nia.
Qed.

Lemma repairs_down_Permutation l i l' : MinHeap.repairs_down l i l' → l' ≡ₚ l.
Proof.
  induction 1 as [|l i l' ? ? IH]; [done|].
  by rewrite IH, exchange_Permutation.
Qed.


(** One exchange with the selected child moves the only possible violation
    of the order one level down. *)
Lemma exchange_down_ordered l i x :
  get l i = Some x → MinHeap.select_smallest l i ≠ i →
  ordered_except_parent i l →
  ordered_except_parent (MinHeap.select_smallest l i)
    (MinHeap.exchange l i (MinHeap.select_smallest l i)).
Proof.
  intros Ex Hne [Hpairs Hgrand].
  destruct (select_smallest_spec l i x Ex) as [[? _]|(Hc & y & Ey & Hyx & Hy)];
    [done|].
  set (s := MinHeap.select_smallest l i) in *. unfold is_child in Hc.
  apply less_less_equal in Hyx.
  split.
  - intros a c u v Hac Ha. rewrite !(get_exchange _ _ _ _ _ _ Ex Ey).
    unfold is_child in Hac.
    repeat case_decide; intros; simplify_eq; try lia;
      first [ done | by_pairs Hpairs | by_grand Hgrand
            | eapply Hy; [|eassumption]; unfold is_child; lia ].
  - intros g c u v Hgs Hsc. rewrite !(get_exchange _ _ _ _ _ _ Ex Ey).
    unfold is_child in Hgs, Hsc.
    repeat case_decide; intros; simplify_eq; try lia; by_pairs Hpairs.
Qed.

Lemma repairs_down_heap_ordered l i l' :
  MinHeap.repairs_down l i l' → ordered_except_parent i l →
  MinHeap.heap_ordered l'.
Proof.
  induction 1 as [l i Hs|l i l' Hs _ IH]; intros Hok.
  - destruct Hok as [Hpairs _]. intros a c u v Hac Ea Ec.
    destruct (decide (a = i)) as [->|]; [|by apply (Hpairs a c)].
    destruct (select_smallest_spec l i u Ea) as [[_ Hu]|(Hc & _)].
    + by apply (Hu c).
    + rewrite Hs in Hc. apply get_Some_bounds in Ea.
      unfold is_child in Hc. lia.
  - apply IH. destruct (get l i) as [x|] eqn:Ex.
    + by eapply exchange_down_ordered.
    + by apply select_smallest_absent in Ex.
Qed.

(** ** MinHeap: the member functions *)


(** The running check implies the invariant. *)
Lemma is_heap_ordered_correct l :
  MinHeap.is_heap_ordered l = true → MinHeap.heap_ordered l.
Proof.
  unfold MinHeap.is_heap_ordered. rewrite forallb_forall.
  intros Hall i c x y Hic Ei Ec.
  pose proof (get_Some_bounds _ _ _ Ei) as Bi.
  pose proof (get_Some_bounds _ _ _ Ec) as Bc.
  assert (Hp : (c - 1) / 2 = i).
  { unfold is_child in Hic. Z.div_mod_to_equations. lia. }
  specialize (Hall (Z.to_nat c)).
  rewrite Z2Nat.id, Hp, Ei, Ec in Hall by lia. apply Hall.
  apply in_seq. unfold is_child in Hic. lia.
Qed.

Lemma enqueue_repairs x h :
  ∃ l' cap, MinHeap.enqueue x h = Returns tt (mk l' cap)
        ∧ MinHeap.repairs_up (elems h ++ [x]) (Z.of_nat (length (elems h))) l'.
Proof.
  unfold MinHeap.enqueue.
  destruct (push_back_Returns x h) as [cap Ep].
  rewrite (bind_Returns _ _ _ _ _ Ep).
  rewrite (bind_Returns _ _ _ _ _ (size_Returns _)).
  unfold MinHeap.bubbleUp. cbn [elems].
  rewrite length_app. cbn [length].
  replace (Z.of_nat (length (elems h) + 1) - 1)
    with (Z.of_nat (length (elems h))) by lia.
  destruct (bubbleUp_loop_repairs (S (Z.to_nat (Z.of_nat (length (elems h)))))
              (Z.of_nat (length (elems h))) (mk (elems h ++ [x]) cap))
    as (l' & E & R).
  - cbn [elems]. rewrite length_app. simpl. lia.
  - rewrite Nat2Z.inj_succ, Z2Nat.id by lia. apply pow2_gt. lia.
  - by exists l', cap.
Qed.

(** Appending to an ordered heap can only break the order between the new
    last element and its parent. *)
Lemma heap_ordered_snoc l x :
  MinHeap.heap_ordered l →
  ordered_except_child (Z.of_nat (length l)) (l ++ [x]).
Proof.
  intros Hl. split.
  - intros i c u v Hic Hc Ei Ec.
    pose proof (get_Some_bounds _ _ _ Ei) as Bi.
    pose proof (get_Some_bounds _ _ _ Ec) as Bc.
    rewrite length_app in Bi, Bc. simpl in Bi, Bc.
    assert (i < c) by (unfold is_child in Hic; lia).
    rewrite get_app_l in Ei, Ec by lia. by apply (Hl i c).
  - intros g c u v _ Hkc _ Ec.
    pose proof (get_Some_bounds _ _ _ Ec) as Bc.
    rewrite length_app in Bc. simpl in Bc. unfold is_child in Hkc. lia.
Qed.

(** [enqueue] in every state. *)
Lemma enqueue_Returns x h :
  ∃ h', MinHeap.enqueue x h = Returns tt h'
        ∧ MinHeap.repairs_up (elems h ++ [x]) (Z.of_nat (length (elems h)))
            (elems h')
        ∧ elems h' ≡ₚ x :: elems h
        ∧ (MinHeap.heap_ordered (elems h) → MinHeap.heap_ordered (elems h')).
Proof.
  destruct (enqueue_repairs x h) as (l' & cap & E & R).
  eexists. split; [exact E|]. split; [exact R|]. split.
  - simpl. rewrite (repairs_up_Permutation _ _ _ R).
    by rewrite Permutation_app_comm.
  - intros Hh. eapply repairs_up_heap_ordered; [exact R|].
    by apply heap_ordered_snoc.
Qed.

Lemma dequeue_empty h :
  elems h = [] →
  MinHeap.dequeue h =
    Throws (out_of_range "Cannot dequeue from an empty heap.") h.
Proof.
  intros E. unfold MinHeap.dequeue.
  rewrite (bind_Returns _ _ _ _ _ (empty_Returns h)).
  by rewrite bool_decide_eq_true_2.
Qed.

Lemma dequeue_single a cap :
  MinHeap.dequeue (mk [a] cap) = Returns tt (mk [] cap).
Proof. done. Qed.

Lemma dequeue_many a m b cap :
  ∃ l', MinHeap.dequeue (mk (a :: m ++ [b]) cap) = Returns tt (mk l' cap)
        ∧ MinHeap.repairs_down (b :: m) 0 l'.
Proof.
  unfold MinHeap.dequeue.
  rewrite (bind_Returns _ _ _ _ _ (empty_Returns _)).
  rewrite bool_decide_eq_false_2 by done.
  assert (Eb : back (mk (a :: m ++ [b]) cap)
               = Returns b (mk (a :: m ++ [b]) cap)).
  { unfold back. cbn [elems]. by rewrite last_cons, last_snoc. }
  rewrite (bind_Returns _ _ _ _ _ Eb).
  assert (Ea : assign 0 b (mk (a :: m ++ [b]) cap)
               = Returns tt (mk (b :: m ++ [b]) cap)) by done.
  rewrite (bind_Returns _ _ _ _ _ Ea).
  assert (Ep : pop_back (mk (b :: m ++ [b]) cap)
               = Returns tt (mk (b :: m) cap)).
  { unfold pop_back. cbn [elems capacity].
    by rewrite (app_comm_cons m [b] b), removelast_last. }
  rewrite (bind_Returns _ _ _ _ _ Ep).
  rewrite (bind_Returns _ _ _ _ _ (empty_Returns _)).
  rewrite bool_decide_eq_false_2 by done. cbn [negb].
  unfold MinHeap.bubbleDown.
  apply (bubbleDown_rec_repairs _ 0 (mk (b :: m) cap)).
  - simpl. lia.
  - rewrite Z.mul_1_l. cbn [elems].
    etrans; [|apply pow2_gt; lia]. lia.
Qed.

(** Moving the last element of an ordered heap to the root can only break
    the order between the root and its children. *)
Lemma heap_ordered_replace_root a m b :
  MinHeap.heap_ordered (a :: m ++ [b]) → ordered_except_parent 0 (b :: m).
Proof.
  intros Hl. split.
  - intros i c u v Hic Hi Ei Ec.
    pose proof (get_Some_bounds _ _ _ Ei) as Bi.
    pose proof (get_Some_bounds _ _ _ Ec) as Bc. simpl in Bi, Bc.
    apply (Hl i c); [done|..].
    + rewrite <- Ei. unfold get.
      rewrite !decide_True by lia.
      replace (Z.to_nat i) with (S (Z.to_nat (i - 1))) by lia. simpl.
      rewrite lookup_app_l by lia. done.
    + rewrite <- Ec. unfold get. unfold is_child in Hic.
      rewrite !decide_True by lia.
      replace (Z.to_nat c) with (S (Z.to_nat (c - 1))) by lia. simpl.
      rewrite lookup_app_l by lia. done.
  - intros g c u v Hg _ Eg _. apply get_Some_bounds in Eg.
    unfold is_child in Hg. lia.
Qed.

(** The three behaviours of [dequeue]: on no element, on one, on more. *)
Lemma dequeue_cases h :
  (elems h = [] ∧
     MinHeap.dequeue h =
       Throws (out_of_range "Cannot dequeue from an empty heap.") h)
  ∨ (∃ a, elems h = [a] ∧
       MinHeap.dequeue h = Returns tt (mk [] (capacity h)))
  ∨ (∃ a m b l', elems h = a :: m ++ [b] ∧
       MinHeap.dequeue h = Returns tt (mk l' (capacity h)) ∧
       MinHeap.repairs_down (b :: m) 0 l').
Proof.
  destruct h as [l cap].
  destruct (nonempty_cases l) as [->|[[a ->]|(a & m & b & ->)]].
  - left. split; [done|]. by apply dequeue_empty.
  - right. left. exists a. split; [done|]. apply dequeue_single.
  - right. right. destruct (dequeue_many a m b cap) as (l' & E & R).
    exists a, m, b, l'. done.
Qed.

(** A successful [dequeue] removes the element previously at the root. *)
Lemma dequeue_Returns h :
  elems h ≠ [] →
  ∃ r h', get (elems h) 0 = Some r
        ∧ MinHeap.dequeue h = Returns tt h'
        ∧ elems h ≡ₚ r :: elems h'
        ∧ capacity h' = capacity h
        ∧ (MinHeap.heap_ordered (elems h) → MinHeap.heap_ordered (elems h')).
Proof.
  intros Hne.
  destruct (dequeue_cases h)
    as [[? _]|[(a & E & D)|(a & m & b & l' & E & D & R)]]; [done|..].
  - exists a. eexists. rewrite E. split; [done|]. split; [exact D|].
    split; [done|]. split; [done|]. intros _ i c u v _ Ei.
    apply get_Some_bounds in Ei. simpl in Ei. lia.
  - exists a. eexists. rewrite E. split; [done|]. split; [exact D|].
    cbn [elems capacity]. split; [|split; [done|]].
    + rewrite (repairs_down_Permutation _ _ _ R).
      f_equiv. by rewrite Permutation_app_comm.
    + intros Hh. eapply repairs_down_heap_ordered; [exact R|].
      by eapply heap_ordered_replace_root.
Qed.

Lemma peek_empty h :
  elems h = [] → MinHeap.peek h = Throws (out_of_range "Heap is empty.") h.
Proof.
  intros E. unfold MinHeap.peek.
  rewrite (bind_Returns _ _ _ _ _ (empty_Returns h)).
  by rewrite bool_decide_eq_true_2.
Qed.

Lemma peek_Returns h x :
  get (elems h) 0 = Some x → MinHeap.peek h = Returns x h.
Proof.
  intros E. unfold MinHeap.peek.
  rewrite (bind_Returns _ _ _ _ _ (empty_Returns h)).
  rewrite bool_decide_eq_false_2 by (by intros E'; rewrite E' in E).
  by apply at_Returns.
Qed.

Lemma isEmpty_Returns h :
  MinHeap.isEmpty h = Returns (bool_decide (elems h = [])) h.
Proof. done. Qed.

(** ** MinHeap: draining *)

(** The root of an ordered heap is below every element. *)
Lemma root_minimal l r :
  MinHeap.heap_ordered l → get l 0 = Some r →
  ∀ i x, get l i = Some x → less_equal r x = true.
Proof.
  intros Hl Er i. 
  assert (Hwf : ∀ n : nat, ∀ i x, Z.to_nat i = n → get l i = Some x →
            less_equal r x = true); [|by eauto].
  clear i. intros n. induction n as [n IH] using lt_wf_ind.
  intros i x Hn Ex.
  pose proof (get_Some_bounds _ _ _ Ex) as Bi.
  destruct (decide (i = 0)) as [->|Hi].
  - simplify_eq. apply less_equal_refl.
  - assert (0 < i) as Hpos by lia.
    pose proof (parent_is_child i Hpos) as Hc.
    destruct (get_in_bounds l ((i - 1) / 2)) as [p Ep].
    { unfold is_child in Hc. lia. }
    eapply less_equal_trans; [|by apply (Hl _ _ p x Hc)].
    eapply (IH (Z.to_nat ((i - 1) / 2))); [|done..].
    unfold is_child in Hc. lia.
Qed.

Lemma root_minimal_Forall l r :
  MinHeap.heap_ordered l → get l 0 = Some r →
  Forall (λ x, less_equal r x = true) l.
Proof.
  intros Hl Er. apply Forall_lookup. intros n x En.
  apply (root_minimal l r Hl Er (Z.of_nat n)).
  unfold get. rewrite decide_True by lia. by rewrite Nat2Z.id.
Qed.

(** Draining returns every stored element, and in order when the heap
    is ordered. *)
Lemma drain_loop_Returns budget : ∀ h,
  (length (elems h) < budget)%nat →
  ∃ out h', MinHeap.drain_loop budget h = Returns out h'
    ∧ elems h' = []
    ∧ out ≡ₚ elems h
    ∧ (MinHeap.heap_ordered (elems h) →
       StronglySorted (λ a b, less_equal a b = true) out).
Proof.
  induction budget as [|b IH]; intros h Hb; [lia|].
  cbn [MinHeap.drain_loop].
  rewrite (bind_Returns _ _ _ _ _ (isEmpty_Returns h)).
  destruct (decide (elems h = [])) as [E|E].
  - rewrite bool_decide_eq_true_2 by done. cbn [negb].
    exists [], h. rewrite E. split_and!; [done..|]. intros _. constructor.
  - rewrite bool_decide_eq_false_2 by done. cbn [negb].
    destruct (dequeue_Returns h E) as (r & h1 & Er & Ed & Hp & _ & Ho).
    rewrite (bind_Returns _ _ _ _ _ (peek_Returns h r Er)).
    rewrite (bind_Returns _ _ _ _ _ Ed).
    destruct (IH h1) as (out & h' & Eo & Ee & Hpo & Hso).
    { apply Permutation_length in Hp. simpl in Hp. lia. }
    rewrite (bind_Returns _ _ _ _ _ Eo).
    exists (r :: out), h'. split_and!; [done|done|..].
    + by rewrite Hp, Hpo.
    + intros Hh. constructor; [by apply Hso, Ho|].
      pose proof (root_minimal_Forall _ _ Hh Er) as Hall.
      rewrite Hp in Hall. apply Forall_cons in Hall as [_ Hall].
      by rewrite Hpo.
Qed.

Lemma drain_Returns h :
  ∃ out h', MinHeap.drain h = Returns out h'
    ∧ elems h' = []
    ∧ out ≡ₚ elems h
    ∧ (MinHeap.heap_ordered (elems h) → MinHeap.ordered_output out).
Proof.
  destruct (drain_loop_Returns (S (length (elems h))) h)
    as (out & h' & ? & ? & ? & Hs); [lia|].
  exists out, h'. split_and!; [done..|].
  intros Hh. by apply StronglySorted_Sorted, Hs.
Qed.



(** ** MinHeap: sequences of calls *)


Lemma invoke_Enqueue x h h' :
  MinHeap.enqueue x h = Returns tt h' →
  MinHeap.invoke (Enqueue x) h = Returns VVoid h'.
Proof.
  intros E. cbn [MinHeap.invoke]. by rewrite (bind_Returns _ _ _ _ _ E).
Qed.

Lemma invoke_Dequeue_Returns h h' :
  MinHeap.dequeue h = Returns tt h' →
  MinHeap.invoke Dequeue h = Returns VVoid h'.
Proof.
  intros E. cbn [MinHeap.invoke]. by rewrite (bind_Returns _ _ _ _ _ E).
Qed.

Lemma invoke_Dequeue_Throws h e h' :
  MinHeap.dequeue h = Throws e h' →
  MinHeap.invoke Dequeue h = Throws e h'.
Proof. intros E. cbn [MinHeap.invoke]. unfold bind. by rewrite E. Qed.

Lemma invoke_Peek_Returns h x h' :
  MinHeap.peek h = Returns x h' →
  MinHeap.invoke Peek h = Returns (VItem x) h'.
Proof.
  intros E. cbn [MinHeap.invoke]. by rewrite (bind_Returns _ _ _ _ _ E).
Qed.

Lemma invoke_Peek_Throws h e h' :
  MinHeap.peek h = Throws e h' →
  MinHeap.invoke Peek h = Throws e h'.
Proof. intros E. cbn [MinHeap.invoke]. unfold bind. by rewrite E. Qed.

(** Every call leaves a state behind; it keeps the heap ordered and
    changes the size by one exactly when it is a successful insertion
    or removal. *)
Lemma invoke_step c h :
  ∃ h', state_after (MinHeap.invoke c h) = Some h'
    ∧ (MinHeap.heap_ordered (elems h) → MinHeap.heap_ordered (elems h'))
    ∧ Z.of_nat (length (elems h')) =
        Z.of_nat (length (elems h))
        + (if successful_enqueue (c, MinHeap.invoke c h) then 1 else 0)
        - (if successful_dequeue (c, MinHeap.invoke c h) then 1 else 0).
Proof.
  destruct c as [x| | | |].
  - destruct (enqueue_Returns x h) as (h' & E & _ & Hp & Ho).
    rewrite (invoke_Enqueue _ _ _ E). exists h'. split_and!; [done..|].
    apply Permutation_length in Hp. simpl in *. lia.
  - destruct (decide (elems h = [])) as [E|E].
    + rewrite (invoke_Dequeue_Throws _ _ _ (dequeue_empty h E)).
      exists h. split_and!; [done..|]. simpl. lia.
    + destruct (dequeue_Returns h E) as (r & h' & _ & Ed & Hp & _ & Ho).
      rewrite (invoke_Dequeue_Returns _ _ Ed).
      exists h'. split_and!; [done..|].
      apply Permutation_length in Hp. simpl in *. lia.
  - destruct (decide (elems h = [])) as [E|E].
    + rewrite (invoke_Peek_Throws _ _ _ (peek_empty h E)).
      exists h. split_and!; [done..|]. simpl. lia.
    + destruct (get_root_nonempty _ E) as [x Ex].
      rewrite (invoke_Peek_Returns _ _ _ (peek_Returns h x Ex)).
      exists h. split_and!; [done..|]. simpl. lia.
  - exists h. split_and!; [done..|]. simpl. lia.
  - exists h. split_and!; [done..|]. simpl. lia.
Qed.

Lemma run_length calls : ∀ h,
  length (run MinHeap.invoke calls h) = length calls.
Proof.
  induction calls as [|c calls IH]; intros h; [done|].
  cbn [run]. destruct (invoke_step c h) as (h' & -> & _). simpl. by rewrite IH.
Qed.





(** ** MinHeap: the properties of the interface *)


Lemma min_empty_raises h :
  length (elems h) = 0%nat →
  (∃ e, MinHeap.peek h = Throws e h ∧ EmptyStructure e)
  ∧ (∃ e, MinHeap.dequeue h = Throws e h ∧ EmptyStructure e)
  ∧ ∀ calls, Forall (λ c, c = Peek ∨ c = Dequeue) calls →
      length (run MinHeap.invoke calls h) = length calls
      ∧ Forall (λ co, ∃ e, co.2 = Throws e h ∧ EmptyStructure e)
          (run MinHeap.invoke calls h).
Proof.
  intros E%nil_length_inv. split_and!.
  - eexists. split; [by apply peek_empty|by eexists].
  - eexists. split; [by apply dequeue_empty|by eexists].
  - intros calls Hc. split; [apply run_length|].
    induction Hc as [|c calls [->| ->] _ IH]; [constructor|..]; cbn [run].
    + rewrite (invoke_Peek_Throws _ _ _ (peek_empty h E)). cbn [state_after].
      constructor; [|done]. eexists. split; [done|by eexists].
    + rewrite (invoke_Dequeue_Throws _ _ _ (dequeue_empty h E)).
      cbn [state_after].
      constructor; [|done]. eexists. split; [done|by eexists].
Qed.

(** The three ways to an empty heap. *)
Lemma min_zero_elements :
  length (elems (MinHeap.ctor (T:=T))) = 0%nat
  ∧ (∀ n h, MinHeap.ctor_initialSize n = Returns tt h →
       length (elems h) = 0%nat)
  ∧ (∀ h out h', MinHeap.drain h = Returns out h' →
       length (elems h') = 0%nat).
Proof.
  split_and!; [done|..].
  - intros n h. unfold MinHeap.ctor_initialSize, reserve.
    case_decide; [done|]. by intros [= <-].
  - intros h out h' E.
    destruct (drain_Returns h) as (out' & h'' & E' & N & _).
    rewrite E in E'. simplify_eq. by rewrite N.
Qed.








End MinHeapProofs.

(** ** MaxHeap: the mirror image *)

(** [MaxHeap] over an order is [MinHeap] over the dual order: the member
    functions are the same terms, and the repairs in the spec's words are
    equivalent relations. *)

Section MaxHeapProofs.
Context {T : Type} {O : TotallyOrdered T}.
Implicit Types (l : list T) (i j k : Z) (x y : T) (h : vector T).

Lemma max_member_functions_dual :
  @MaxHeap.enqueue T O = @MinHeap.enqueue T (dual O)
  ∧ @MaxHeap.dequeue T O = @MinHeap.dequeue T (dual O)
  ∧ @MaxHeap.peek T = @MinHeap.peek T
  ∧ @MaxHeap.getSize T = @MinHeap.getSize T
  ∧ @MaxHeap.isEmpty T = @MinHeap.isEmpty T
  ∧ @MaxHeap.bubbleUp T O = @MinHeap.bubbleUp T (dual O)
  ∧ @MaxHeap.bubbleDown T O = @MinHeap.bubbleDown T (dual O)
  ∧ @MaxHeap.heap_ordered T O = @MinHeap.heap_ordered T (dual O).
Proof. by split_and!. Qed.





Lemma max_is_heap_ordered_correct l :
  MaxHeap.is_heap_ordered l = true → MaxHeap.heap_ordered l.
Proof. apply (is_heap_ordered_correct (H:=dual O)). Qed.
End MaxHeapProofs.

(** * The claims *)



(** C3 (empty-structure failure).  On a heap with zero elements [peek] and
    [dequeue] throw [std::out_of_range] and leave the heap as it was, and
    so does every call of any sequence of [peek]s and [dequeue]s. *)
Theorem empty_heap_raises (T : Type) (O : TotallyOrdered T) (h : vector T) :
  length (elems h) = 0%nat →
  ((∃ e, MinHeap.peek h = Throws e h ∧ EmptyStructure e)
   ∧ (∃ e, MinHeap.dequeue h = Throws e h ∧ EmptyStructure e)
   ∧ ∀ calls, Forall (λ c, c = Peek ∨ c = Dequeue) calls →
       length (run MinHeap.invoke calls h) = length calls
       ∧ Forall (λ co, ∃ e, co.2 = Throws e h ∧ EmptyStructure e)
           (run MinHeap.invoke calls h))
  ∧ ((∃ e, MaxHeap.peek h = Throws e h ∧ EmptyStructure e)
     ∧ (∃ e, MaxHeap.dequeue h = Throws e h ∧ EmptyStructure e)
     ∧ ∀ calls, Forall (λ c, c = Peek ∨ c = Dequeue) calls →
         length (run MaxHeap.invoke calls h) = length calls
         ∧ Forall (λ co, ∃ e, co.2 = Throws e h ∧ EmptyStructure e)
             (run MaxHeap.invoke calls h)).
Proof.
  intros E.
  split; [by apply min_empty_raises|by apply (min_empty_raises (H:=dual O))].
Qed.

Lemma empty_heap_raises_witness :
  length (elems (@MinHeap.ctor Z)) = 0%nat
  ∧ (∃ e, MinHeap.peek (@MinHeap.ctor Z) = Throws e MinHeap.ctor
          ∧ EmptyStructure e)
  ∧ (∃ e, MaxHeap.dequeue (@MaxHeap.ctor Z) = Throws e MaxHeap.ctor
          ∧ EmptyStructure e).
Proof.
  split; [reflexivity|].
  destruct (empty_heap_raises Z _ MinHeap.ctor eq_refl)
    as [(Hpeek & _) (_ & Hdequeue & _)].
  split; [exact Hpeek|exact Hdequeue].
Defined.














(** * Further properties of the code *)

(** ** MinHeap: more on the helpers and on the interface *)

Section MinHeapMore.
Context {T : Type} `{TotallyOrdered T}.
Implicit Types (l : list T) (i j k : Z) (x y : T) (h : vector T).

(** *** The helpers run from any index *)

Lemma bubbleUp_repairs i h :
  0 ≤ i < Z.of_nat (length (elems h)) →
  ∃ l', MinHeap.bubbleUp i h = Returns tt (mk l' (capacity h))
        ∧ MinHeap.repairs_up (elems h) i l'.
Proof.
  intros Hi. apply bubbleUp_loop_repairs; [done|].
  rewrite Nat2Z.inj_succ, Z2Nat.id by lia. apply pow2_gt. lia.
Qed.






(** *** Repairs of an ordered heap *)






(** *** One violation, at any index *)

Lemma min_bubbleUp_restores i h :
  0 ≤ i < Z.of_nat (length (elems h)) →
  ordered_except_child i (elems h) →
  ∃ h', MinHeap.bubbleUp i h = Returns tt h'
    ∧ MinHeap.heap_ordered (elems h')
    ∧ elems h' ≡ₚ elems h.
Proof.
  intros Hi Hok. destruct (bubbleUp_repairs i h Hi) as (l' & E & R).
  eexists. split; [exact E|]. split.
  - by eapply repairs_up_heap_ordered.
  - by apply repairs_up_Permutation in R.
Qed.


(** *** Where the helpers are defined *)



Lemma get_elem_of l i x : get l i = Some x → x ∈ l.
Proof.
  unfold get. case_decide; [|done]. intros E.
  apply list_elem_of_lookup. eauto.
Qed.

(** *** The priority-queue contract *)

Lemma min_peek_minimum h :
  MinHeap.heap_ordered (elems h) → elems h ≠ [] →
  ∃ x, MinHeap.peek h = Returns x h
    ∧ x ∈ elems h
    ∧ Forall (λ y, less_equal x y = true) (elems h).
Proof.
  intros Hh Hne. destruct (get_root_nonempty _ Hne) as [x Ex].
  exists x. split_and!.
  - by apply peek_Returns.
  - by eapply get_elem_of.
  - by apply root_minimal_Forall.
Qed.


(** *** The root after an insertion *)



(** *** Insertions in ascending order *)



(** *** [isEmpty] guards [peek] and [dequeue] *)


(** *** The reserved storage *)





(** *** The cost of an insertion *)

End MinHeapMore.

(** ** What the code guarantees beyond the claims *)

(** X1 ([peek]).  On a non-empty heap that satisfies the invariant [peek]
    returns a stored element that is below or equal to every stored
    element (above or equal, for a [MaxHeap]). *)
Theorem peek_returns_the_extremum (T : Type) (O : TotallyOrdered T)
    (hmin hmax : vector T) :
  MinHeap.heap_ordered (elems hmin) → elems hmin ≠ [] →
  MaxHeap.heap_ordered (elems hmax) → elems hmax ≠ [] →
  (∃ x, MinHeap.peek hmin = Returns x hmin
     ∧ x ∈ elems hmin
     ∧ Forall (λ y, less_equal x y = true) (elems hmin))
  ∧ (∃ x, MaxHeap.peek hmax = Returns x hmax
       ∧ x ∈ elems hmax
       ∧ Forall (λ y, greater_equal x y = true) (elems hmax)).
Proof.
  intros Hmin Nmin Hmax Nmax.
  split; [by apply min_peek_minimum|by apply (min_peek_minimum (H:=dual O))].
Qed.

Lemma peek_returns_the_extremum_witness :
  MinHeap.heap_ordered (elems (mk [1; 3; 2; 7] 4))
  ∧ elems (mk [1; 3; 2; 7] 4) ≠ []
  ∧ MaxHeap.heap_ordered (elems (mk [7; 3; 2; 1] 4))
  ∧ elems (mk [7; 3; 2; 1] 4) ≠ []
  ∧ (∃ x, MinHeap.peek (mk [1; 3; 2; 7] 4) = Returns x (mk [1; 3; 2; 7] 4)
       ∧ Forall (λ y, less_equal x y = true) [1; 3; 2; 7])
  ∧ (∃ x, MaxHeap.peek (mk [7; 3; 2; 1] 4) = Returns x (mk [7; 3; 2; 1] 4)
       ∧ Forall (λ y, greater_equal x y = true) [7; 3; 2; 1]).
Proof.
  assert (Hmin : MinHeap.heap_ordered (elems (mk [1; 3; 2; 7] 4)))
    by (apply is_heap_ordered_correct; reflexivity).
  assert (Nmin : elems (mk [1; 3; 2; 7] 4) ≠ []) by discriminate.
  assert (Hmax : MaxHeap.heap_ordered (elems (mk [7; 3; 2; 1] 4)))
    by (apply max_is_heap_ordered_correct; reflexivity).
  assert (Nmax : elems (mk [7; 3; 2; 1] 4) ≠ []) by discriminate.
  split; [exact Hmin|]. split; [exact Nmin|].
  split; [exact Hmax|]. split; [exact Nmax|].
  destruct (peek_returns_the_extremum Z _ _ _ Hmin Nmin Hmax Nmax)
    as [(x & Ex & _ & Hx) (y & Ey & _ & Hy)].
  split; [exists x|exists y]; (split; [assumption|assumption]).
Defined.







(** X5 ([bubbleUp]).  When the order holds everywhere except between the
    element at an index and its parent, [bubbleUp] from that index
    returns a permutation of the storage in which the order holds
    everywhere. *)
Theorem bubbleUp_restores_the_order (T : Type) (O : TotallyOrdered T)
    (hmin hmax : vector T) (i j : Z) :
  0 ≤ i < Z.of_nat (length (elems hmin)) →
  ordered_except_child i (elems hmin) →
  0 ≤ j < Z.of_nat (length (elems hmax)) →
  @ordered_except_child T (dual O) j (elems hmax) →
  (∃ h', MinHeap.bubbleUp i hmin = Returns tt h'
     ∧ MinHeap.heap_ordered (elems h')
     ∧ elems h' ≡ₚ elems hmin)
  ∧ (∃ h', MaxHeap.bubbleUp j hmax = Returns tt h'
       ∧ MaxHeap.heap_ordered (elems h')
       ∧ elems h' ≡ₚ elems hmax).
Proof.
  intros Hi Hmin Hj Hmax.
  split; [by apply min_bubbleUp_restores
         |by apply (min_bubbleUp_restores (H:=dual O))].
Qed.

Lemma bubbleUp_restores_the_order_witness :
  0 ≤ 3 < Z.of_nat (length (elems (mk [1; 3; 2; 0] 4)))
  ∧ ordered_except_child 3 (elems (mk [1; 3; 2; 0] 4))
  ∧ 0 ≤ 3 < Z.of_nat (length (elems (mk [7; 3; 2; 9] 4)))
  ∧ @ordered_except_child Z (dual _) 3 (elems (mk [7; 3; 2; 9] 4))
  ∧ (∃ h', MinHeap.bubbleUp 3 (mk [1; 3; 2; 0] 4) = Returns tt h'
       ∧ MinHeap.heap_ordered (elems h'))
  ∧ (∃ h', MaxHeap.bubbleUp 3 (mk [7; 3; 2; 9] 4) = Returns tt h'
       ∧ MaxHeap.heap_ordered (elems h')).
Proof.
  assert (Hi : 0 ≤ 3 < Z.of_nat (length (elems (mk [1; 3; 2; 0] 4))))
    by (simpl; lia).
  assert (Hmin : ordered_except_child 3 (elems (mk [1; 3; 2; 0] 4))).
  { apply (heap_ordered_snoc [1; 3; 2] 0).
    apply is_heap_ordered_correct. reflexivity. }
  assert (Hj : 0 ≤ 3 < Z.of_nat (length (elems (mk [7; 3; 2; 9] 4))))
    by (simpl; lia).
  assert (Hmax : @ordered_except_child Z (dual _) 3
                   (elems (mk [7; 3; 2; 9] 4))).
  { apply (heap_ordered_snoc (H:=dual _) [7; 3; 2] 9).
    apply max_is_heap_ordered_correct. reflexivity. }
  split; [exact Hi|]. split; [exact Hmin|].
  split; [exact Hj|]. split; [exact Hmax|].
  destruct (bubbleUp_restores_the_order Z _ _ _ 3 3 Hi Hmin Hj Hmax)
    as [(h1 & E1 & Ho1 & _) (h2 & E2 & Ho2 & _)].
  split; [exists h1|exists h2]; (split; assumption).
Defined.









(** X11 (the two classes).  A [MaxHeap] over an order does, call by call,
    what a [MinHeap] does over the reversed order, and the other way
    round: same outcomes, same states. *)
Theorem max_heap_is_min_heap_reversed (T : Type) (O : TotallyOrdered T)
    (calls : list (call T)) (h : vector T) :
  run (@MaxHeap.invoke T O) calls h = run (@MinHeap.invoke T (dual O)) calls h
  ∧ run (@MinHeap.invoke T O) calls h
    = run (@MaxHeap.invoke T (dual O)) calls h.
Proof. split; reflexivity. Qed.

